(** * nosht: the database-resident logic of the ticketing application

    A shallow embedding of the three PL/pgSQL routines shipped with the
    application,

    - [update_user_ts], the trigger AFTER INSERT ON actions FOR EACH ROW,
    - [check_tickets_remaining (event_id INT, ttl INT) RETURNS INT],
    - [full_name (first_name, last_name, email) RETURNS VARCHAR],

    together with the tables they read and write.  A table is a finite map
    from its primary key to the remaining columns; SQL NULL is [None]; a
    [timestamptz] is an integer number of microseconds, the resolution
    PostgreSQL stores it with; [now()] is the start time of the enclosing
    transaction, the same all through one call, and is an explicit
    argument.

    Two pieces of the browser side follow: the menu of the settings pages
    and the set-password form, as functions on the state they read and
    write. *)

From stdpp Require Import gmap strings sorting.
From Stdlib Require Import ZArith Ascii.

Local Open Scope Z_scope.

(** ** Tables *)

(** Modelled from the spec: the table definitions are not part of the
    sources.  A ticket has an identifier (the key of the table), an owning
    event, a status among reserved / paid / cancelled and a creation
    timestamp. *)
Inductive ticket_status : Set := reserved | paid | cancelled.

#[global] Instance ticket_status_eq_dec : EqDecision ticket_status.
Proof. solve_decision. Defined.

Record Ticket : Set := mkTicket {
  event : Z;
  status : ticket_status;
  created_ts : Z
}.

(** Modelled from the spec: an event has an identifier (the key of the
    table), a ticket limit and the cached number of tickets taken. *)
Record Event : Set := mkEvent {
  ticket_limit : Z;
  tickets_taken : Z
}.

(** Modelled from the spec: a user has an identifier (the key of the table),
    profile fields and the timestamp of the last activity.  The profile
    fields kept here are the three that [full_name] takes. *)
Record User : Set := mkUser {
  first_name : option string;
  last_name : option string;
  email : option string;
  active_ts : Z
}.

(** Modelled from the spec: an action is an append-only audit row that may
    be associated with a user; [user_id] is the only column the trigger
    reads. *)
Record Action : Set := mkAction {
  user_id : option Z
}.

Record DB : Type := mkDB {
  tickets : gmap Z Ticket;
  events : gmap Z Event;
  users : gmap Z User;
  actions : list Action
}.

(** Modelled from the spec: every ticket belongs to an event (many-to-one);
    the foreign key itself is part of the table definitions, which are not
    in the sources. *)
Definition tickets_reference_events (db : DB) : Prop :=
  map_Forall (λ (_ : Z) t, is_Some (events db !! event t)) (tickets db).

#[global] Instance tickets_reference_events_dec db :
  Decision (tickets_reference_events db).
Proof. unfold tickets_reference_events. apply _. Defined.

(** ** Errors

    A PL/pgSQL function that raises an error aborts the statement that
    called it, and every change it made is rolled back: a failing call
    carries no new database state. *)
Inductive sql_error : Set :=
  | numeric_value_out_of_range.   (* SQLSTATE 22003 *)

Inductive result (A : Type) : Type :=
  | Ok (a : A)
  | Err (e : sql_error).
Arguments Ok {A} a.
Arguments Err {A} e.

#[global] Instance result_ret : MRet result := λ A a, Ok a.

#[global] Instance result_bind : MBind result := λ A B k r,
  match r with
  | Ok a => k a
  | Err e => Err e
  end.

(** ** SQL values *)

Definition INT_MIN : Z := -2147483648.
Definition INT_MAX : Z := 2147483647.

Definition in_INT (z : Z) : Prop := INT_MIN ≤ z ≤ INT_MAX.

#[global] Instance in_INT_dec z : Decision (in_INT z).
Proof. unfold in_INT. apply _. Defined.

(** Storing a value into an [INT] variable, or returning it from a function
    declared [RETURNS INT]: out of range is an error, not a wrap-around. *)
Definition to_INT (z : Z) : result Z :=
  if decide (in_INT z) then Ok z else Err numeric_value_out_of_range.

Definition USECS_PER_SEC : Z := 1000000.

(** [(ttl || ' seconds')::interval], as a number of microseconds.  The age
    [now() - created_ts] is an interval too, and two intervals without a
    month part compare as their lengths do. *)
Definition seconds_interval (ttl : Z) : Z := ttl * USECS_PER_SEC.

(** [a || b] on character strings: NULL as soon as one side is NULL. *)
Definition sql_concat (a b : option string) : option string :=
  x ← a; y ← b; Some (x +:+ y).

(** [coalesce(...)]: the first argument that is not NULL, NULL when there
    is none. *)
Fixpoint coalesce {A : Type} (args : list (option A)) : option A :=
  match args with
  | [] => None
  | Some x :: _ => Some x
  | None :: args => coalesce args
  end.

(** ** update_user_ts *)

Definition set_active_ts (now : Z) (u : User) : User :=
  {| first_name := first_name u; last_name := last_name u;
     email := email u; active_ts := now |}.

(** [UPDATE users SET active_ts=now() WHERE id=NEW.user_id]; no row matches
    when [NEW.user_id] is NULL.  The trigger function returns NULL, which an
    AFTER trigger ignores. *)
Definition update_user_ts (NEW : Action) (now : Z) (db : DB) : DB :=
  {| tickets := tickets db; events := events db;
     users := match user_id NEW with
              | Some id => alter (set_active_ts now) id (users db)
              | None => users db
              end;
     actions := actions db |}.

(** [INSERT INTO actions ...] of one row, and the trigger
    [AFTER INSERT ON actions FOR EACH ROW] that it fires. *)
Definition insert_action (NEW : Action) (now : Z) (db : DB) : DB :=
  update_user_ts NEW now
    {| tickets := tickets db; events := events db; users := users db;
       actions := actions db ++ [NEW] |}.

(** The databases reached by a sequence of insertions, each with the clock
    reading of its transaction. *)
Fixpoint insert_actions (steps : list (Z * Action)) (db : DB) : list DB :=
  match steps with
  | [] => []
  | (now, NEW) :: steps =>
      let db' := insert_action NEW now db in
      db' :: insert_actions steps db'
  end.

(** The values that [active_ts] of one user takes, from the starting
    database on. *)
Definition active_ts_history (id : Z) (steps : list (Z * Action)) (db : DB)
  : list Z :=
  omap (λ d, active_ts <$> users d !! id) (db :: insert_actions steps db).

(** ** check_tickets_remaining *)

(** [WHERE status='reserved' AND event=event_id
          AND now() - created_ts > (ttl || ' seconds')::interval] *)
Definition expired_reservation (now event_id ttl : Z) (t : Ticket) : Prop :=
  status t = reserved ∧ event t = event_id
  ∧ now - created_ts t > seconds_interval ttl.

#[global] Instance expired_reservation_dec now event_id ttl t :
  Decision (expired_reservation now event_id ttl t).
Proof. unfold expired_reservation. apply _. Defined.

(** [DELETE FROM tickets WHERE ...]: the rows that stay. *)
Definition delete_expired (now event_id ttl : Z) (tk : gmap Z Ticket)
  : gmap Z Ticket :=
  filter (λ kt, ¬ expired_reservation now event_id ttl kt.2) tk.

(** [WHERE event=event_id AND status != 'cancelled'] *)
Definition taken (event_id : Z) (t : Ticket) : Prop :=
  event t = event_id ∧ status t ≠ cancelled.

#[global] Instance taken_dec event_id t : Decision (taken event_id t).
Proof. unfold taken. apply _. Defined.

(** [SELECT coalesce(COUNT( * ), 0) FROM tickets WHERE ...]; [COUNT] is
    never NULL, so the [coalesce] is the identity. *)
Definition count_taken (event_id : Z) (tk : gmap Z Ticket) : Z :=
  Z.of_nat (size (filter (λ kt, taken event_id kt.2) tk)).

(** [UPDATE events SET tickets_taken=tickets_taken_ WHERE id=event_id] *)
Definition set_tickets_taken (tickets_taken_ : Z) (e : Event) : Event :=
  {| ticket_limit := ticket_limit e; tickets_taken := tickets_taken_ |}.

Definition update_tickets_taken (event_id tickets_taken_ : Z)
    (ev : gmap Z Event) : gmap Z Event :=
  alter (set_tickets_taken tickets_taken_) event_id ev.

(** [(SELECT ticket_limit - tickets_taken FROM events WHERE id=event_id)]:
    a scalar subquery over the primary key yields the value of its one
    row, or NULL when no row matches. *)
Definition select_remaining (event_id : Z) (ev : gmap Z Event)
  : result (option Z) :=
  match ev !! event_id with
  | None => Ok None
  | Some e => r ← to_INT (ticket_limit e - tickets_taken e); Ok (Some r)
  end.

Definition check_tickets_remaining (event_id ttl : Z) (now : Z) (db : DB)
  : result (option Z * DB) :=
  let tk := delete_expired now event_id ttl (tickets db) in
  tickets_taken_ ← to_INT (count_taken event_id tk);
  let ev := update_tickets_taken event_id tickets_taken_ (events db) in
  r ← select_remaining event_id ev;
  Ok (r, {| tickets := tk; events := ev;
            users := users db; actions := actions db |}).

(** The database a caller sees once the call is over: the new state when it
    returned, the old one when it raised. *)
Definition db_after (db : DB) (r : result (option Z * DB)) : DB :=
  match r with
  | Ok (_, db') => db'
  | Err _ => db
  end.

(** A call as a caller issues it: the two arguments, and the clock reading
    of its transaction. *)
Record call : Set := mkCall {
  call_event_id : Z;
  call_ttl : Z;
  call_now : Z
}.

(** The database left by a sequence of calls, oldest first. *)
Definition run_calls (cs : list call) (db : DB) : DB :=
  foldl (λ d c, db_after d (check_tickets_remaining
                              (call_event_id c) (call_ttl c) (call_now c) d))
        db cs.

(** The reservations of an event, whatever their age. *)
Definition reservation_of (event_id : Z) (t : Ticket) : Prop :=
  event t = event_id ∧ status t = reserved.

#[global] Instance reservation_of_dec event_id t :
  Decision (reservation_of event_id t).
Proof. unfold reservation_of. apply _. Defined.

(** The paid tickets of an event. *)
Definition paid_of (event_id : Z) (t : Ticket) : Prop :=
  event t = event_id ∧ status t = paid.

#[global] Instance paid_of_dec event_id t : Decision (paid_of event_id t).
Proof. unfold paid_of. apply _. Defined.

(** ** full_name *)

(** [return coalesce(first_name || ' ' || last_name, first_name, last_name,
    email)].  The length in [VARCHAR(255)] is not part of the type of a
    function argument or result, so no string is cut. *)
Definition full_name (first_name last_name email : option string)
  : option string :=
  coalesce [ sql_concat (sql_concat first_name (Some " ")) last_name;
             first_name; last_name; email ].

(** ** Sample databases *)

(** The example of the specification: event 7 with a limit of 10 (and a
    stale cache of 11), eight paid tickets, and three reservations made 120
    seconds before the call, which happens at second 1000. *)
Definition ex_tickets : gmap Z Ticket :=
  list_to_map
    [ (1, mkTicket 7 paid 0); (2, mkTicket 7 paid 0); (3, mkTicket 7 paid 0);
      (4, mkTicket 7 paid 0); (5, mkTicket 7 paid 0); (6, mkTicket 7 paid 0);
      (7, mkTicket 7 paid 0); (8, mkTicket 7 paid 0);
      (9, mkTicket 7 reserved 880000000);
      (10, mkTicket 7 reserved 880000000);
      (11, mkTicket 7 reserved 880000000) ].

Definition ex_db : DB :=
  {| tickets := ex_tickets;
     events := {[ 7 := mkEvent 10 11 ]};
     users := ∅; actions := [] |}.

(** The same database once the three reservations are gone and the cache
    is refreshed. *)
Definition ex_db_swept : DB :=
  {| tickets :=
       list_to_map
         [ (1, mkTicket 7 paid 0); (2, mkTicket 7 paid 0);
           (3, mkTicket 7 paid 0); (4, mkTicket 7 paid 0);
           (5, mkTicket 7 paid 0); (6, mkTicket 7 paid 0);
           (7, mkTicket 7 paid 0); (8, mkTicket 7 paid 0) ];
     events := {[ 7 := mkEvent 10 8 ]};
     users := ∅; actions := [] |}.

(** A single reservation of event 7, made at second 940, in front of a
    call at second 1000 with a [ttl] of 60: its age is the [ttl] exactly. *)
Definition boundary_db : DB :=
  {| tickets := {[ 1 := mkTicket 7 reserved 940000000 ]};
     events := {[ 7 := mkEvent 10 0 ]};
     users := ∅; actions := [] |}.

(** Two users, last seen at seconds 5 and 8. *)
Definition ex_users_db : DB :=
  {| tickets := ∅; events := ∅;
     users := {[ 1 := mkUser (Some "Jo") (Some "Smith") (Some "a@b.com")
                             5000000;
                 2 := mkUser None None (Some "c@d.org") 8000000 ]};
     actions := [] |}.

(** Four insertions: by user 1, by user 2, by nobody, by user 1 again. *)
Definition ex_steps : list (Z * Action) :=
  [ (10000000, mkAction (Some 1)); (10000000, mkAction (Some 2));
    (20000000, mkAction None); (30000000, mkAction (Some 1)) ].

(** ** Derived notions used to state further properties *)

(** What the caller of [check_tickets_remaining] receives: the value, or the
    error. *)
Definition returned (r : result (option Z * DB)) : result (option Z) :=
  match r with
  | Ok (v, _) => Ok v
  | Err e => Err e
  end.

(** The database after a sequence of insertions into [actions], oldest
    first. *)
Definition run_insertions (steps : list (Z * Action)) (db : DB) : DB :=
  foldl (λ d s, insert_action s.2 s.1 d) db steps.

(** An event whose limit is the smallest [INT], with one paid ticket. *)
Definition overflow_db : DB :=
  {| tickets := {[ 1 := mkTicket 7 paid 0 ]};
     events := {[ 7 := mkEvent INT_MIN 0 ]};
     users := ∅; actions := [] |}.

(** Two events, each with one old reservation and one paid ticket. *)
Definition two_events_db : DB :=
  {| tickets := {[ 1 := mkTicket 7 reserved 0; 2 := mkTicket 7 paid 0;
                   3 := mkTicket 8 reserved 0; 4 := mkTicket 8 paid 0 ]};
     events := {[ 7 := mkEvent 10 0; 8 := mkEvent 5 0 ]};
     users := ∅; actions := [] |}.

(** ** The settings menu (js/src/settings/Main.js)

    Character strings of the browser are sequences of code units; the
    strings handled here (paths, query strings, class names) are ASCII, and
    [string] holds them unit by unit. *)

(** An entry of [PAGES].  The two components are classes imported from
    other modules; they are kept by name, and [null] is [None]. *)
Record page : Set := mkPage {
  name : string;
  singular : string;
  list_comp : option string;
  details_comp : option string
}.

Definition PAGES : list page :=
  [ mkPage "events" "Event" (Some "EventsList") (Some "EventsDetails");
    mkPage "categories" "Category"
           (Some "CategoriesList") (Some "CategoriesDetails");
    mkPage "users" "User" (Some "UsersList") (Some "UsersDetails");
    mkPage "company" "Company" None None;
    mkPage "export" "Export" None None ].

(** [const list_uri = page => `/settings/${page.name}/`] *)
Definition list_uri (p : page) : string := "/settings/" +:+ name p +:+ "/".

(** What [MenuItem] hands to [Link]. *)
Record link : Set := mkLink {
  link_to : string;
  className : string;
  children : string
}.

(** [MenuItem]: the entry is marked active when [location.pathname] starts
    with the list address of the page.  [as_title] comes from a module that
    is not in the sources and is a parameter. *)
Definition MenuItem (as_title : string → string) (p : page)
    (pathname : string) : link :=
  let uri := list_uri p in
  let active := if String.prefix uri pathname then " active" else "" in
  {| link_to := uri;
     className := "list-group-item list-group-item-action" +:+ active;
     children := as_title (name p) |}.

(** A name without the character [/]. *)
Fixpoint slash_free (s : string) : Prop :=
  match s with
  | EmptyString => True
  | String c s => c ≠ "/"%char ∧ slash_free s
  end.

(** ** The set-password form (iframes/set-password.html) *)

(** [s.replace(searchValue, '')] for a string [searchValue]: the first
    occurrence of [searchValue] in [s], if there is one, is taken out. *)
Fixpoint string_skip (n : nat) (s : string) : string :=
  match n, s with
  | O, _ => s
  | S n, String _ s => string_skip n s
  | S _, EmptyString => EmptyString
  end.

Fixpoint replace_by_empty (searchValue s : string) : string :=
  if String.prefix searchValue s
  then string_skip (String.length searchValue) s
  else match s with
       | EmptyString => EmptyString
       | String c s => String c (replace_by_empty searchValue s)
       end.

(** [token: window.location.search.replace('?token=', '')] *)
Definition token_of_search (search : string) : string :=
  replace_by_empty "?token=" search.

(** What the strength estimator [zxcvbn], loaded from a CDN, reports about
    a password, as far as the form reads it: [score] and
    [feedback.warning]. *)
Record zxcvbn_result : Set := mkZxcvbn {
  score : nat;
  warning : string
}.

(** The two fields, the two flags, the message under the first field and
    the button of the form. *)
Record form : Set := mkForm {
  pw1_value : string;
  pw2_value : string;
  pw1_ok : bool;
  pw2_ok : bool;
  pw1_className : string;
  pw2_className : string;
  msg_innerText : string;
  btn_disabled : bool
}.

(** The form as the page is loaded: empty fields, [let pw1_ok = false],
    [let pw2_ok = false], the button carrying [disabled], and the message
    element with the text the page gives it. *)
Definition initial_form : form :=
  {| pw1_value := ""; pw2_value := "";
     pw1_ok := false; pw2_ok := false;
     pw1_className := "form-control"; pw2_className := "form-control";
     msg_innerText := "Passwords do not match.";
     btn_disabled := true |}.

Definition dft_msg : string := "Password not strong enough.".

(** [btn.disabled = !pw1_ok || !pw2_ok] *)
Definition enabled_button (f : form) : form :=
  {| pw1_value := pw1_value f; pw2_value := pw2_value f;
     pw1_ok := pw1_ok f; pw2_ok := pw2_ok f;
     pw1_className := pw1_className f; pw2_className := pw2_className f;
     msg_innerText := msg_innerText f;
     btn_disabled := negb (pw1_ok f) || negb (pw2_ok f) |}.

(** [pw1.value.length > 5 && status.score >= 2] *)
Definition strong_enough (zxcvbn : string → zxcvbn_result) (v : string)
  : bool :=
  (5 <? String.length v)%nat && (2 <=? score (zxcvbn v))%nat.

(** The listener of [input] on the first field; [v] is the content of the
    field when the event is delivered. *)
Definition on_input_pw1 (zxcvbn : string → zxcvbn_result) (v : string)
    (f : form) : form :=
  let status := zxcvbn v in
  let ok := strong_enough zxcvbn v in
  enabled_button
    (if ok
     then {| pw1_value := v; pw2_value := pw2_value f;
             pw1_ok := ok; pw2_ok := pw2_ok f;
             pw1_className := "form-control is-valid";
             pw2_className := pw2_className f;
             msg_innerText := msg_innerText f;
             btn_disabled := btn_disabled f |}
     else {| pw1_value := v; pw2_value := pw2_value f;
             pw1_ok := ok; pw2_ok := pw2_ok f;
             pw1_className := "form-control is-invalid";
             pw2_className := pw2_className f;
             msg_innerText :=
               if (5 <? String.length v)%nat
               then (if decide (warning status = "")
                     then dft_msg else warning status)
               else "Password too short.";
             btn_disabled := btn_disabled f |}).

(** The listener of [input] on the second field. *)
Definition on_input_pw2 (v : string) (f : form) : form :=
  let ok := bool_decide (pw1_value f = v) in
  enabled_button
    {| pw1_value := pw1_value f; pw2_value := v;
       pw1_ok := pw1_ok f; pw2_ok := ok;
       pw1_className := pw1_className f;
       pw2_className := if ok then "form-control is-valid"
                        else "form-control is-invalid";
       msg_innerText := msg_innerText f;
       btn_disabled := btn_disabled f |}.

(** What the user does to the form. *)
Inductive input_event : Set :=
  | input_pw1 (v : string)
  | input_pw2 (v : string).

Definition deliver (zxcvbn : string → zxcvbn_result) (f : form)
    (e : input_event) : form :=
  match e with
  | input_pw1 v => on_input_pw1 zxcvbn v f
  | input_pw2 v => on_input_pw2 v f
  end.

(** The form after a sequence of [input] events, oldest first. *)
Definition after_inputs (zxcvbn : string → zxcvbn_result)
    (es : list input_event) : form :=
  foldl (deliver zxcvbn) initial_form es.

(** The object [on_submit] serialises and sends. *)
Record set_password_data : Set := mkData {
  password1 : string;
  password2 : string;
  token : string
}.

Definition on_submit_data (search : string) (f : form) : set_password_data :=
  {| password1 := pw1_value f; password2 := pw2_value f;
     token := token_of_search search |}.

(** An estimator that finds every password excellent, and one that finds
    every password poor. *)
Definition lenient_zxcvbn (_ : string) : zxcvbn_result := mkZxcvbn 4 "".
Definition severe_zxcvbn (_ : string) : zxcvbn_result :=
  mkZxcvbn 0 "This is a top-10 common password".

(** * Properties of update_user_ts *)

Section activity.
Implicit Types (NEW : Action) (db : DB) (u : User).

Lemma lookup_insert_action_user NEW now db id :
  user_id NEW = Some id →
  users (insert_action NEW now db) !! id
  = set_active_ts now <$> users db !! id.
Proof.
  intros H. unfold insert_action, update_user_ts. simpl.
  by rewrite H, lookup_alter_eq.
Qed.

Lemma lookup_insert_action_other NEW now db id :
  user_id NEW ≠ Some id →
  users (insert_action NEW now db) !! id = users db !! id.
Proof.
  intros H. unfold insert_action, update_user_ts. simpl.
  destruct (user_id NEW) as [id'|]; [|done].
  apply lookup_alter_ne. congruence.
Qed.

Lemma active_ts_history_cons id now NEW steps db u :
  users db !! id = Some u →
  active_ts_history id ((now, NEW) :: steps) db
  = active_ts u :: active_ts_history id steps (insert_action NEW now db).
Proof.
  intros H. unfold active_ts_history. simpl. by rewrite H.
Qed.

Lemma Sorted_le_skip (a b : Z) (l : list Z) :
  a ≤ b → Sorted Z.le (b :: l) → Sorted Z.le (a :: l).
Proof.
  intros Hab Hs. apply Sorted_inv in Hs as [Hs Hhd].
  constructor; [done|]. destruct Hhd; constructor. lia.
Qed.

Lemma Sorted_le_head (a : Z) (l : list Z) :
  Sorted Z.le l → head l = Some a → Sorted Z.le (a :: l).
Proof.
  intros Hs Hhd. constructor; [done|].
  destruct l as [|b l]; simplify_eq/=; constructor. lia.
Qed.

(** The invariant behind the monotonicity: the stored timestamp is never
    ahead of the clock readings still to come. *)
Lemma active_ts_history_sorted id steps : ∀ db u,
  users db !! id = Some u →
  Sorted Z.le (active_ts u :: steps.*1) →
  Sorted Z.le (active_ts_history id steps db)
  ∧ head (active_ts_history id steps db) = Some (active_ts u).
Proof.
  induction steps as [|[now NEW] steps IH]; intros db u Hu Hs.
  - unfold active_ts_history. simpl. rewrite Hu. simpl.
    split; [by repeat constructor|done].
  - rewrite (active_ts_history_cons _ _ _ _ _ _ Hu).
    split; [|done].
    change (Sorted Z.le (active_ts u :: now :: steps.*1)) in Hs.
    apply Sorted_inv in Hs as [Htl Hhd].
    apply HdRel_inv in Hhd.
    destruct (decide (user_id NEW = Some id)) as [Heq|Hne].
    + destruct (IH (insert_action NEW now db) (set_active_ts now u))
        as [Hsorted Hhead]; [|exact Htl|].
      { by rewrite lookup_insert_action_user, Hu. }
      apply (Sorted_le_skip _ now); [done|].
      by apply Sorted_le_head.
    + destruct (IH (insert_action NEW now db) u) as [Hsorted Hhead].
      { by rewrite lookup_insert_action_other. }
      { by apply (Sorted_le_skip _ now). }
      by apply Sorted_le_head.
Qed.
End activity.

(** C8.  Inserting an action of a user sets that user's [active_ts] to the
    clock reading of the insertion and leaves the other fields of the row
    as they were; an action of somebody else, or of nobody, leaves the row
    alone.  Over any sequence of insertions made with a clock that does
    not go backwards, the values of one user's [active_ts] never decrease:
    from the stored value on when that value is itself a reading of the
    clock, and in any case from the user's first action on. *)
Theorem update_user_ts_last_seen id u db :
  users db !! id = Some u →
  (∀ NEW now, user_id NEW = Some id →
     users (insert_action NEW now db) !! id
     = Some {| first_name := first_name u; last_name := last_name u;
               email := email u; active_ts := now |})
  ∧ (∀ NEW now, user_id NEW ≠ Some id →
       users (insert_action NEW now db) !! id = Some u)
  ∧ (∀ steps, Sorted Z.le (active_ts u :: steps.*1) →
       Sorted Z.le (active_ts_history id steps db))
  ∧ (∀ NEW now steps, user_id NEW = Some id →
       Sorted Z.le (now :: steps.*1) →
       Sorted Z.le (active_ts_history id steps (insert_action NEW now db))).
Proof.
  intros Hu. repeat split.
  - intros NEW now H. by rewrite lookup_insert_action_user, Hu.
  - intros NEW now H. by rewrite lookup_insert_action_other.
  - intros steps Hs. by apply (active_ts_history_sorted id steps db u).
  - intros NEW now steps H Hs.
    apply (active_ts_history_sorted id steps _ (set_active_ts now u));
      [|done].
    by rewrite lookup_insert_action_user, Hu.
Qed.

Lemma update_user_ts_last_seen_witness :
  users (insert_action (mkAction (Some 1)) 10000000 ex_users_db) !! 1
  = Some (mkUser (Some "Jo") (Some "Smith") (Some "a@b.com") 10000000)
  ∧ active_ts_history 1 ex_steps ex_users_db
    = [5000000; 10000000; 10000000; 10000000; 30000000]
  ∧ Sorted Z.le (active_ts_history 1 ex_steps ex_users_db).
Proof.
  destruct (update_user_ts_last_seen 1
              (mkUser (Some "Jo") (Some "Smith") (Some "a@b.com") 5000000)
              ex_users_db)
    as (Hset & _ & Hmono & _); [reflexivity|].
  split; [by apply Hset|]. split; [by vm_compute|].
  apply Hmono. simpl. repeat constructor; by vm_compute.
Defined.

(** * Properties of check_tickets_remaining *)

Section sweep_and_count.
Implicit Types (tk : gmap Z Ticket) (ev : gmap Z Event) (t : Ticket).

Lemma lookup_delete_expired now event_id ttl tk k :
  delete_expired now event_id ttl tk !! k
  = t ← tk !! k;
    if decide (expired_reservation now event_id ttl t) then None else Some t.
Proof.
  unfold delete_expired. rewrite map_lookup_filter.
  destruct (tk !! k) as [t|]; simpl; [|done].
  case_guard; case_decide; simpl in *; done.
Qed.

Lemma delete_expired_idemp now event_id ttl tk :
  delete_expired now event_id ttl (delete_expired now event_id ttl tk)
  = delete_expired now event_id ttl tk.
Proof.
  unfold delete_expired. rewrite map_filter_filter.
  apply map_filter_ext. intros k t _. simpl. tauto.
Qed.

Lemma delete_expired_other_event now event_id ttl tk :
  (∀ k t, tk !! k = Some t → event t ≠ event_id) →
  delete_expired now event_id ttl tk = tk.
Proof.
  intros H. unfold delete_expired. apply map_filter_id.
  intros k t Hk [_ [He _]]. by apply (H k t).
Qed.

Lemma delete_expired_all_reservations now event_id ttl tk :
  (∀ k t, tk !! k = Some t → reservation_of event_id t →
          now - created_ts t > seconds_interval ttl) →
  delete_expired now event_id ttl tk
  = filter (λ kt, ¬ reservation_of event_id kt.2) tk.
Proof.
  intros Hold. unfold delete_expired. apply map_filter_ext.
  intros k t Hk. simpl. unfold expired_reservation, reservation_of.
  specialize (Hold k t Hk). unfold reservation_of in Hold. tauto.
Qed.

Lemma count_taken_other_event event_id tk :
  (∀ k t, tk !! k = Some t → event t ≠ event_id) →
  count_taken event_id tk = 0.
Proof.
  intros H. unfold count_taken.
  replace (filter (λ kt, taken event_id kt.2) tk) with (∅ : gmap Z Ticket);
    [by rewrite map_size_empty|].
  symmetry. apply map_empty_filter. intros k t Hk [He _].
  by apply (H k t).
Qed.

Lemma count_taken_without_reservations event_id tk :
  count_taken event_id (filter (λ kt, ¬ reservation_of event_id kt.2) tk)
  = Z.of_nat (size (filter (λ kt, paid_of event_id kt.2) tk)).
Proof.
  unfold count_taken. rewrite map_filter_filter. do 2 f_equal.
  apply map_filter_ext. intros k t _. simpl.
  unfold taken, reservation_of, paid_of.
  destruct (status t); intuition congruence.
Qed.

(** Not cancelled means reserved or paid. *)
Lemma count_taken_reserved_plus_paid event_id tk :
  count_taken event_id tk
  = Z.of_nat (size (filter (λ kt, reservation_of event_id kt.2) tk))
    + Z.of_nat (size (filter (λ kt, paid_of event_id kt.2) tk)).
Proof.
  unfold count_taken. rewrite <-Nat2Z.inj_add. f_equal.
  rewrite <-map_size_disj_union.
  - rewrite <-map_filter_or. f_equal. apply map_filter_ext.
    intros k t _. simpl. unfold taken, reservation_of, paid_of.
    destruct (status t); intuition congruence.
  - apply map_disjoint_spec. intros k t1 t2.
    rewrite !map_lookup_filter_Some. simpl.
    unfold reservation_of, paid_of. intros [H1 [_ Hr]] [H2 [_ Hp]].
    congruence.
Qed.

Lemma to_INT_Ok z : in_INT z → to_INT z = Ok z.
Proof. intros H. unfold to_INT. by rewrite decide_True. Qed.

Lemma to_INT_inv z z' : to_INT z = Ok z' → z' = z ∧ in_INT z.
Proof. unfold to_INT. case_decide; naive_solver. Qed.

Lemma update_tickets_taken_idemp event_id n ev :
  update_tickets_taken event_id n (update_tickets_taken event_id n ev)
  = update_tickets_taken event_id n ev.
Proof.
  unfold update_tickets_taken. rewrite alter_alter_eq.
  by apply alter_ext.
Qed.

Lemma lookup_update_tickets_taken event_id n ev e :
  ev !! event_id = Some e →
  update_tickets_taken event_id n ev !! event_id
  = Some {| ticket_limit := ticket_limit e; tickets_taken := n |}.
Proof.
  intros H. unfold update_tickets_taken.
  by rewrite lookup_alter_eq, H.
Qed.
End sweep_and_count.

(** What a call that returns has done: the three statements, in order. *)
Lemma check_tickets_remaining_Ok event_id ttl now db r db' :
  check_tickets_remaining event_id ttl now db = Ok (r, db') →
  let tk := delete_expired now event_id ttl (tickets db) in
  let n := count_taken event_id tk in
  let ev := update_tickets_taken event_id n (events db) in
  in_INT n
  ∧ select_remaining event_id ev = Ok r
  ∧ db' = {| tickets := tk; events := ev;
             users := users db; actions := actions db |}.
Proof.
  unfold check_tickets_remaining. intros H.
  destruct (to_INT (count_taken event_id
              (delete_expired now event_id ttl (tickets db))))
    as [n|err] eqn:Hn; simpl in H; [|done].
  apply to_INT_inv in Hn as [-> Hn].
  destruct (select_remaining event_id _) as [r'|err] eqn:Hr;
    simpl in H; [|done].
  by simplify_eq.
Qed.

(** The result of a call for an existing event, as long as the count and
    the difference are [INT] values. *)
Lemma check_tickets_remaining_existing event_id ttl now db e :
  events db !! event_id = Some e →
  let tk := delete_expired now event_id ttl (tickets db) in
  let n := count_taken event_id tk in
  in_INT n → in_INT (ticket_limit e - n) →
  check_tickets_remaining event_id ttl now db
  = Ok (Some (ticket_limit e - n),
        {| tickets := tk;
           events := update_tickets_taken event_id n (events db);
           users := users db; actions := actions db |}).
Proof.
  intros He tk n Hn Hr. unfold check_tickets_remaining.
  fold tk. fold n. rewrite (to_INT_Ok n Hn). simpl.
  unfold select_remaining.
  rewrite (lookup_update_tickets_taken _ _ _ _ He). simpl.
  by rewrite (to_INT_Ok _ Hr).
Qed.

(** A call for a missing event deletes nothing, counts nothing, updates
    nothing, and its final [SELECT] finds no row. *)
Lemma check_tickets_remaining_missing event_id ttl now db :
  events db !! event_id = None →
  tickets_reference_events db →
  check_tickets_remaining event_id ttl now db = Ok (None, db).
Proof.
  intros Hnone Hfk.
  assert (∀ k t, tickets db !! k = Some t → event t ≠ event_id) as Hother.
  { intros k t Hk Heq. destruct (Hfk k t Hk) as [e He]. congruence. }
  unfold check_tickets_remaining.
  rewrite (delete_expired_other_event _ _ _ _ Hother).
  rewrite (count_taken_other_event _ _ Hother).
  rewrite to_INT_Ok by (by vm_compute). simpl.
  unfold update_tickets_taken. rewrite (alter_id' _ _ _ Hnone).
  unfold select_remaining. rewrite Hnone. simpl.
  by destruct db.
Qed.

(** C1.  For an existing event, once a call of [check_tickets_remaining]
    for that event has returned, the event's [tickets_taken] equals the
    number of its tickets that are not cancelled, that is reserved plus
    paid, counted in the table the call leaves behind.  The database
    before the call is the outcome of any sequence of earlier calls on any
    database, so neither the earlier calls nor the earlier state of the
    tickets matter. *)
Theorem tickets_taken_no_drift prior db0 event_id ttl now r db' :
  let db := run_calls prior db0 in
  is_Some (events db !! event_id) →
  check_tickets_remaining event_id ttl now db = Ok (r, db') →
  ∃ e, events db' !! event_id = Some e
       ∧ tickets_taken e = count_taken event_id (tickets db')
       ∧ tickets_taken e
         = Z.of_nat (size (filter (λ kt, reservation_of event_id kt.2)
                             (tickets db')))
           + Z.of_nat (size (filter (λ kt, paid_of event_id kt.2)
                               (tickets db'))).
Proof.
  intros db [e0 He0] H.
  apply check_tickets_remaining_Ok in H as (_ & _ & ->). simpl.
  eexists. split; [by apply lookup_update_tickets_taken|]. simpl.
  split; [done|]. apply count_taken_reserved_plus_paid.
Qed.

Lemma tickets_taken_no_drift_witness :
  ∃ e, events ex_db_swept !! 7 = Some e
       ∧ tickets_taken e = count_taken 7 (tickets ex_db_swept)
       ∧ tickets_taken e
         = Z.of_nat (size (filter (λ kt, reservation_of 7 kt.2)
                             (tickets ex_db_swept)))
           + Z.of_nat (size (filter (λ kt, paid_of 7 kt.2)
                               (tickets ex_db_swept))).
Proof.
  apply (tickets_taken_no_drift
           [mkCall 99 60 500000000; mkCall 7 600 900000000] ex_db
           7 60 1000000000 (Some 2)).
  - by exists (mkEvent 10 11).
  - by vm_compute.
Defined.

(** C2.  For an existing event the call returns [ticket_limit] minus the
    freshly recomputed [tickets_taken], which is the number of tickets of
    the event that are not cancelled once the sweep is done; the count and
    the difference are taken to be [INT] values, as the declarations of
    [tickets_taken_] and of the return type require.  The difference can be
    negative.  With a limit of 10, eight paid tickets and three
    reservations made 120 seconds before the call, a call with a [ttl] of
    60 removes the three reservations, stores 8 and returns 2. *)
Theorem check_tickets_remaining_returns :
  (∀ event_id ttl now db e,
     events db !! event_id = Some e →
     let tk := delete_expired now event_id ttl (tickets db) in
     let n := count_taken event_id tk in
     in_INT n → in_INT (ticket_limit e - n) →
     check_tickets_remaining event_id ttl now db
     = Ok (Some (ticket_limit e - n),
           {| tickets := tk;
              events := update_tickets_taken event_id n (events db);
              users := users db; actions := actions db |}))
  ∧ (∃ event_id ttl now db r db',
       is_Some (events db !! event_id)
       ∧ check_tickets_remaining event_id ttl now db = Ok (Some r, db')
       ∧ r < 0)
  ∧ (∀ event_id now db e,
       events db !! event_id = Some e →
       ticket_limit e = 10 →
       size (filter (λ kt, paid_of event_id kt.2) (tickets db)) = 8%nat →
       size (filter (λ kt, reservation_of event_id kt.2) (tickets db))
         = 3%nat →
       (∀ k t, tickets db !! k = Some t → reservation_of event_id t →
               created_ts t = now - seconds_interval 120) →
       ∃ db',
         check_tickets_remaining event_id 60 now db = Ok (Some 2, db')
         ∧ tickets db'
           = filter (λ kt, ¬ reservation_of event_id kt.2) (tickets db)
         ∧ events db' !! event_id
           = Some {| ticket_limit := 10; tickets_taken := 8 |}).
Proof.
  split; [exact check_tickets_remaining_existing|]. split.
  - exists 7, 600, 1000000000, ex_db, (-1). eexists.
    split; [by exists (mkEvent 10 11)|].
    split; [by vm_compute|lia].
  - intros event_id now db e He Hlim Hpaid _ Hage.
    assert (delete_expired now event_id 60 (tickets db)
            = filter (λ kt, ¬ reservation_of event_id kt.2) (tickets db))
      as Hsweep.
    { apply delete_expired_all_reservations. intros k t Hk Hr.
      rewrite (Hage k t Hk Hr). unfold seconds_interval, USECS_PER_SEC. lia. }
    assert (count_taken event_id (delete_expired now event_id 60 (tickets db))
            = 8) as Hcount.
    { rewrite Hsweep, count_taken_without_reservations, Hpaid. done. }
    eexists. split; [|split].
    + rewrite (check_tickets_remaining_existing _ _ _ _ e He);
        rewrite Hcount, ?Hlim; [reflexivity|by vm_compute..].
    + exact Hsweep.
    + simpl. rewrite (lookup_update_tickets_taken _ _ _ _ He).
      by rewrite Hlim.
Qed.

Lemma check_tickets_remaining_returns_witness :
  events ex_db !! 7 = Some (mkEvent 10 11)
  ∧ check_tickets_remaining 7 60 1000000000 ex_db
    = Ok (Some 2, ex_db_swept)
  ∧ ∃ db',
      check_tickets_remaining 7 60 1000000000 ex_db = Ok (Some 2, db')
      ∧ tickets db' = filter (λ kt, ¬ reservation_of 7 kt.2) (tickets ex_db)
      ∧ events db' !! 7 = Some {| ticket_limit := 10; tickets_taken := 8 |}.
Proof.
  destruct check_tickets_remaining_returns as (Hgen & _ & Hex).
  split; [reflexivity|]. split.
  - etrans.
    + apply (Hgen 7 60 1000000000 ex_db (mkEvent 10 11));
        [reflexivity|by vm_compute..].
    + by vm_compute.
  - apply (Hex 7 1000000000 ex_db (mkEvent 10 11));
      [reflexivity|reflexivity|by vm_compute|by vm_compute|].
    change (map_Forall (λ (_ : Z) t, reservation_of 7 t →
              created_ts t = 1000000000 - seconds_interval 120)
              (tickets ex_db)).
    apply (bool_decide_unpack _). by vm_compute.
Defined.

(** C3, as the code has it.  In a database whose tickets all belong to
    events, a call for an [event_id] that references no event raises no
    error at all: it returns NULL, and it changes no row of [events] and no
    row of [tickets]. *)
Theorem check_tickets_remaining_missing_no_error event_id ttl now db :
  events db !! event_id = None →
  tickets_reference_events db →
  (∀ err, check_tickets_remaining event_id ttl now db ≠ Err err)
  ∧ ∃ db', check_tickets_remaining event_id ttl now db = Ok (None, db')
           ∧ events db' = events db ∧ tickets db' = tickets db.
Proof.
  intros Hnone Hfk.
  rewrite (check_tickets_remaining_missing _ _ _ _ Hnone Hfk).
  split; [done|]. by exists db.
Qed.

Lemma check_tickets_remaining_missing_no_error_witness :
  (∀ err, check_tickets_remaining 99 60 1000000000 ex_db ≠ Err err)
  ∧ ∃ db', check_tickets_remaining 99 60 1000000000 ex_db = Ok (None, db')
           ∧ events db' = events ex_db ∧ tickets db' = tickets ex_db.
Proof.
  apply (check_tickets_remaining_missing_no_error 99 60 1000000000 ex_db).
  - reflexivity.
  - apply (bool_decide_unpack _). by vm_compute.
Defined.

(** C3, as the specification words it, fails: the call for the missing
    event 99 does not end in an error. *)
Lemma check_tickets_remaining_missing_not_an_error :
  events ex_db !! 99 = None
  ∧ ¬ ∃ err, check_tickets_remaining 99 60 1000000000 ex_db = Err err.
Proof.
  split; [reflexivity|]. intros [err H]. by vm_compute in H.
Qed.

(** C4, as the code has it.  A call that returns has deleted exactly the
    tickets of the event that were reserved and whose age was strictly
    greater than [ttl] seconds.  In particular a reservation made at time
    [T] is gone after any call made at a time strictly later than
    [T + ttl], and is not among the rows that [tickets_taken] counts.
    Paid tickets, cancelled tickets, reservations whose age is at most
    [ttl], and tickets of other events all stay as they were. *)
Theorem sweep_deletes_exactly event_id ttl now db r db' :
  check_tickets_remaining event_id ttl now db = Ok (r, db') →
  (∀ k, tickets db' !! k
        = t ← tickets db !! k;
          if decide (status t = reserved ∧ event t = event_id
                     ∧ now - created_ts t > seconds_interval ttl)
          then None else Some t)
  ∧ (∀ k t T, tickets db !! k = Some t →
       status t = reserved → event t = event_id → created_ts t = T →
       now > T + seconds_interval ttl →
       tickets db' !! k = None
       ∧ filter (λ kt, taken event_id kt.2) (tickets db') !! k = None)
  ∧ (∀ k t, tickets db !! k = Some t →
       status t = paid ∨ status t = cancelled
       ∨ now - created_ts t ≤ seconds_interval ttl ∨ event t ≠ event_id →
       tickets db' !! k = Some t).
Proof.
  intros H. apply check_tickets_remaining_Ok in H as (_ & _ & ->). simpl.
  split; [|split].
  - intros k. apply lookup_delete_expired.
  - intros k t T Hk Hs He HT Hnow.
    assert (delete_expired now event_id ttl (tickets db) !! k = None) as Hdel.
    { rewrite lookup_delete_expired, Hk. simpl.
      rewrite decide_True; [done|]. unfold expired_reservation.
      repeat split; [done..|lia]. }
    split; [done|]. apply map_lookup_filter_None. by left.
  - intros k t Hk Hkeep.
    rewrite lookup_delete_expired, Hk. simpl.
    rewrite decide_False; [done|]. unfold expired_reservation.
    intros (Hs & He & Hage). destruct Hkeep as [?|[?|[?|?]]];
      [congruence|congruence|lia|done].
Qed.

Lemma sweep_deletes_exactly_witness :
  tickets ex_db_swept !! 9 = None
  ∧ filter (λ kt, taken 7 kt.2) (tickets ex_db_swept) !! 9 = None.
Proof.
  destruct (sweep_deletes_exactly 7 60 1000000000 ex_db (Some 2) ex_db_swept)
    as (_ & Hgone & _); [by vm_compute|].
  apply (Hgone 9 (mkTicket 7 reserved 880000000) 880000000);
    [reflexivity..|by vm_compute].
Defined.

(** C4, as the specification words it, fails at the boundary: a call made
    at time [T + ttl] exactly keeps the reservation and counts it. *)
Lemma sweep_keeps_reservation_at_ttl :
  tickets boundary_db !! 1 = Some (mkTicket 7 reserved 940000000)
  ∧ 940000000 + seconds_interval 60 ≤ 1000000000
  ∧ ∃ db', check_tickets_remaining 7 60 1000000000 boundary_db
           = Ok (Some 9, db')
           ∧ tickets db' !! 1 = Some (mkTicket 7 reserved 940000000)
           ∧ events db' !! 7 = Some (mkEvent 10 1).
Proof.
  split; [reflexivity|]. split; [by vm_compute|].
  eexists. split; [by vm_compute|]. split; reflexivity.
Qed.

(** C5.  A second call with the same arguments and the same clock reading,
    made on the database the first call left, returns what the first call
    returned and changes nothing: not the tickets, not [tickets_taken].
    This holds for every event identifier, existing or not. *)
Theorem check_tickets_remaining_idempotent event_id ttl now db :
  let r1 := check_tickets_remaining event_id ttl now db in
  let db1 := db_after db r1 in
  let r2 := check_tickets_remaining event_id ttl now db1 in
  r2 = r1
  ∧ tickets (db_after db1 r2) = tickets db1
  ∧ events (db_after db1 r2) = events db1.
Proof.
  intros r1 db1 r2.
  assert (r2 = r1) as Heq; [|by rewrite Heq; subst db1; destruct r1 as [[]|]].
  subst r2 db1.
  destruct r1 as [[v db1]|err] eqn:H; [|done]. subst r1. simpl.
  apply check_tickets_remaining_Ok in H as (Hn & Hsel & ->).
  unfold check_tickets_remaining. simpl.
  rewrite delete_expired_idemp, (to_INT_Ok _ Hn). simpl.
  rewrite update_tickets_taken_idemp, Hsel. done.
Qed.

(** C9.  In a database whose tickets all belong to events, a call for an
    [event_id] that references no event completes without an error and
    returns NULL, and the database it leaves is the database it found. *)
Theorem check_tickets_remaining_missing_returns_null event_id ttl now db :
  events db !! event_id = None →
  tickets_reference_events db →
  check_tickets_remaining event_id ttl now db = Ok (None, db).
Proof. apply check_tickets_remaining_missing. Qed.

Lemma check_tickets_remaining_missing_returns_null_witness :
  check_tickets_remaining 99 60 1000000000 ex_db = Ok (None, ex_db).
Proof.
  apply (check_tickets_remaining_missing_returns_null 99 60 1000000000 ex_db).
  - reflexivity.
  - apply (bool_decide_unpack _). by vm_compute.
Defined.

(** * Properties of full_name *)

Section strings.
Implicit Types s : string.

Lemma append_cons c s1 s2 : String c s1 +:+ s2 = String c (s1 +:+ s2).
Proof. reflexivity. Qed.

Lemma append_assoc s1 s2 s3 : (s1 +:+ s2) +:+ s3 = s1 +:+ s2 +:+ s3.
Proof.
  induction s1 as [|c s1 IH]; [done|].
  by rewrite !append_cons, IH.
Qed.

Lemma append_empty_r s : s +:+ "" = s.
Proof.
  induction s as [|c s IH]; [done|].
  by rewrite append_cons, IH.
Qed.

Lemma length_append s1 s2 :
  String.length (s1 +:+ s2) = (String.length s1 + String.length s2)%nat.
Proof.
  induction s1 as [|c s1 IH]; [done|].
  rewrite append_cons. simpl. by rewrite IH.
Qed.
End strings.

(** C7.  [full_name] is a function of its three arguments.  With both
    names present it is the first name, a space, the last name; with one
    name present it is that name; with none it is the email.  The three
    examples of the specification evaluate as stated. *)
Theorem full_name_cases :
  (∀ f l e, full_name (Some f) (Some l) e = Some (f +:+ " " +:+ l))
  ∧ (∀ f e, full_name (Some f) None e = Some f)
  ∧ (∀ l e, full_name None (Some l) e = Some l)
  ∧ (∀ e, full_name None None e = e)
  ∧ full_name (Some "Jo") (Some "Smith") (Some "a@b.com") = Some "Jo Smith"
  ∧ full_name None (Some "Smith") (Some "a@b.com") = Some "Smith"
  ∧ full_name None None (Some "a@b.com") = Some "a@b.com".
Proof.
  repeat split; try reflexivity.
  - intros f l e.
    change (Some ((f +:+ " ") +:+ l) = Some (f +:+ " " +:+ l)).
    by rewrite append_assoc.
  - intros [e|]; reflexivity.
Qed.

(** C10.  An empty string is a name like any other: with an empty first
    name the result is a space followed by the last name, with an empty
    last name it is the first name followed by a space, whatever the
    email; the result is not the single name. *)
Theorem full_name_empty_string :
  (∀ L E, full_name (Some "") (Some L) E = Some (" " +:+ L)
          ∧ full_name (Some "") (Some L) E ≠ Some L)
  ∧ (∀ F E, full_name (Some F) (Some "") E = Some (F +:+ " ")
            ∧ full_name (Some F) (Some "") E ≠ Some F).
Proof.
  split.
  - intros L E. split; [reflexivity|].
    intros [= H].
    apply (f_equal String.length) in H. rewrite length_append in H.
    simpl in H. lia.
  - intros F E.
    assert (full_name (Some F) (Some "") E = Some (F +:+ " ")) as ->.
    { change (Some ((F +:+ " ") +:+ "") = Some (F +:+ " ")).
      by rewrite append_empty_r. }
    split; [done|]. intros [= H].
    apply (f_equal String.length) in H. rewrite length_append in H.
    simpl in H. lia.
Qed.


(** * Further properties of check_tickets_remaining *)

Section more_sweep_and_count.
Implicit Types (tk : gmap Z Ticket) (ev : gmap Z Event) (t : Ticket).

Lemma delete_expired_subseteq now event_id ttl tk :
  delete_expired now event_id ttl tk ⊆ tk.
Proof. apply map_filter_subseteq. Qed.

(** The sweep only looks at [now - ttl]: a later cutoff removes more. *)
Lemma delete_expired_mono now1 ttl1 now2 ttl2 event_id tk :
  now1 - seconds_interval ttl1 ≤ now2 - seconds_interval ttl2 →
  delete_expired now2 event_id ttl2 tk ⊆ delete_expired now1 event_id ttl1 tk.
Proof.
  intros Hcut. unfold delete_expired. apply map_filter_subseteq_ext.
  intros k t _. simpl. unfold expired_reservation.
  intros Hkeep (Hs & He & Hage). apply Hkeep. repeat split; [done..|lia].
Qed.

Lemma delete_expired_absorb now1 ttl1 now2 ttl2 event_id tk :
  now1 - seconds_interval ttl1 ≤ now2 - seconds_interval ttl2 →
  delete_expired now2 event_id ttl2 (delete_expired now1 event_id ttl1 tk)
  = delete_expired now2 event_id ttl2 tk.
Proof.
  intros Hcut. unfold delete_expired. rewrite map_filter_filter.
  apply map_filter_ext. intros k t _. simpl. unfold expired_reservation.
  split; [tauto|]. intros Hkeep. split; [done|].
  intros (Hs & He & Hage). apply Hkeep. repeat split; [done..|lia].
Qed.

Lemma delete_expired_comm now1 ttl1 e1 now2 ttl2 e2 tk :
  delete_expired now1 e1 ttl1 (delete_expired now2 e2 ttl2 tk)
  = delete_expired now2 e2 ttl2 (delete_expired now1 e1 ttl1 tk).
Proof.
  unfold delete_expired. rewrite !map_filter_filter.
  apply map_filter_ext. intros k t _. simpl. tauto.
Qed.

Lemma count_taken_mono event_id tk1 tk2 :
  tk1 ⊆ tk2 → count_taken event_id tk1 ≤ count_taken event_id tk2.
Proof.
  intros Hsub. unfold count_taken. apply inj_le.
  apply map_subseteq_size. by apply map_filter_subseteq_mono.
Qed.

Lemma count_taken_le_size event_id tk :
  0 ≤ count_taken event_id tk ≤ Z.of_nat (size tk).
Proof.
  unfold count_taken. split; [lia|]. apply inj_le, map_size_filter.
Qed.

(** Sweeping one event does not change the count of another. *)
Lemma count_taken_delete_expired_ne now ttl e1 e2 tk :
  e1 ≠ e2 →
  count_taken e2 (delete_expired now e1 ttl tk) = count_taken e2 tk.
Proof.
  intros Hne. unfold count_taken, delete_expired.
  rewrite map_filter_filter. do 2 f_equal.
  apply map_filter_ext. intros k t _. simpl.
  unfold taken, expired_reservation. split; [tauto|].
  intros [He Hs]. split; [done|]. intros (_ & He' & _). congruence.
Qed.

Lemma update_tickets_taken_comm e1 n1 e2 n2 ev :
  e1 ≠ e2 →
  update_tickets_taken e1 n1 (update_tickets_taken e2 n2 ev)
  = update_tickets_taken e2 n2 (update_tickets_taken e1 n1 ev).
Proof. intros Hne. unfold update_tickets_taken. by apply alter_alter_ne. Qed.

Lemma update_tickets_taken_overwrite event_id n1 n2 ev :
  update_tickets_taken event_id n2 (update_tickets_taken event_id n1 ev)
  = update_tickets_taken event_id n2 ev.
Proof.
  unfold update_tickets_taken. rewrite alter_alter_eq. by apply alter_ext.
Qed.

Lemma select_remaining_update_ne e1 n1 e2 ev :
  e1 ≠ e2 →
  select_remaining e2 (update_tickets_taken e1 n1 ev) = select_remaining e2 ev.
Proof.
  intros Hne. unfold select_remaining, update_tickets_taken.
  by rewrite lookup_alter_ne.
Qed.

Lemma select_remaining_existing event_id n ev e :
  ev !! event_id = Some e →
  select_remaining event_id (update_tickets_taken event_id n ev)
  = r ← to_INT (ticket_limit e - n); Ok (Some r).
Proof.
  intros He. unfold select_remaining.
  by rewrite (lookup_update_tickets_taken _ _ _ _ He).
Qed.
End more_sweep_and_count.

(** X1.  What a returning call never does: it leaves [users] and [actions]
    alone, creates and removes no event, changes no row of another event,
    keeps the [ticket_limit] of its own event, and adds or rewrites no
    ticket (the tickets left are a part of the tickets found). *)
Theorem check_tickets_remaining_frame event_id ttl now db r db' :
  check_tickets_remaining event_id ttl now db = Ok (r, db') →
  users db' = users db
  ∧ actions db' = actions db
  ∧ dom (events db') = dom (events db)
  ∧ (∀ id, id ≠ event_id → events db' !! id = events db !! id)
  ∧ ticket_limit <$> events db' !! event_id
    = ticket_limit <$> events db !! event_id
  ∧ tickets db' ⊆ tickets db.
Proof.
  intros H. apply check_tickets_remaining_Ok in H as (_ & _ & ->). simpl.
  unfold update_tickets_taken. repeat split.
  - apply dom_alter_L.
  - intros id Hne. by apply lookup_alter_ne.
  - rewrite lookup_alter_eq. by destruct (events db !! event_id).
  - apply delete_expired_subseteq.
Qed.

Lemma check_tickets_remaining_frame_witness :
  users ex_db_swept = users ex_db
  ∧ actions ex_db_swept = actions ex_db
  ∧ dom (events ex_db_swept) = dom (events ex_db)
  ∧ (∀ id, id ≠ 7 → events ex_db_swept !! id = events ex_db !! id)
  ∧ ticket_limit <$> events ex_db_swept !! 7
    = ticket_limit <$> events ex_db !! 7
  ∧ tickets ex_db_swept ⊆ tickets ex_db.
Proof.
  apply (check_tickets_remaining_frame 7 60 1000000000 ex_db (Some 2)).
  by vm_compute.
Defined.

(** X2.  A returning call keeps the tickets attached to events: when every
    ticket referenced an existing event before, every ticket does after. *)
Theorem check_tickets_remaining_keeps_references event_id ttl now db r db' :
  tickets_reference_events db →
  check_tickets_remaining event_id ttl now db = Ok (r, db') →
  tickets_reference_events db'.
Proof.
  intros Hfk H. apply check_tickets_remaining_Ok in H as (_ & _ & ->).
  intros k t Hk. simpl in *.
  assert (tickets db !! k = Some t) as Hk0.
  { eapply lookup_weaken; [exact Hk|apply delete_expired_subseteq]. }
  destruct (Hfk k t Hk0) as [e He]. unfold update_tickets_taken.
  apply lookup_alter_is_Some. by exists e.
Qed.

Lemma check_tickets_remaining_keeps_references_witness :
  tickets_reference_events ex_db_swept.
Proof.
  apply (check_tickets_remaining_keeps_references
           7 60 1000000000 ex_db (Some 2)).
  - apply (bool_decide_unpack _). by vm_compute.
  - by vm_compute.
Defined.

(** X3.  For an existing event the call raises an error exactly when the
    count of taken tickets, or the limit minus that count, is not an [INT]
    value; the error is then numeric_value_out_of_range and, the call being
    rolled back, the caller's database is the one it had. *)
Theorem check_tickets_remaining_raises event_id ttl now db e :
  events db !! event_id = Some e →
  let n := count_taken event_id
             (delete_expired now event_id ttl (tickets db)) in
  (check_tickets_remaining event_id ttl now db
   = Err numeric_value_out_of_range
   ↔ ¬ (in_INT n ∧ in_INT (ticket_limit e - n)))
  ∧ (∀ err, check_tickets_remaining event_id ttl now db = Err err →
       db_after db (check_tickets_remaining event_id ttl now db) = db).
Proof.
  intros He n. split; [|by intros err ->].
  unfold check_tickets_remaining. fold n. unfold to_INT at 1.
  destruct (decide (in_INT n)) as [Hn|Hn]; simpl; [|tauto].
  rewrite (select_remaining_existing _ _ _ _ He). unfold to_INT.
  destruct (decide (in_INT (ticket_limit e - n))) as [Hr|Hr]; simpl;
    [|tauto].
  split; [done|tauto].
Qed.

Lemma check_tickets_remaining_raises_witness :
  check_tickets_remaining 7 60 1000000000 overflow_db
  = Err numeric_value_out_of_range.
Proof.
  destruct (check_tickets_remaining_raises 7 60 1000000000 overflow_db
              (mkEvent INT_MIN 0) eq_refl) as [[_ Hraise] _].
  apply Hraise. apply (bool_decide_unpack _). by vm_compute.
Defined.

(** X4.  The call cannot raise in a database of at most [INT_MAX] tickets
    whose event, if it exists, has a limit between [INT_MIN] plus the
    number of tickets and [INT_MAX]; every non-negative [INT] limit is such
    a limit. *)
Theorem check_tickets_remaining_never_raises event_id ttl now db :
  Z.of_nat (size (tickets db)) ≤ INT_MAX →
  (∀ e, events db !! event_id = Some e →
        INT_MIN + Z.of_nat (size (tickets db)) ≤ ticket_limit e ≤ INT_MAX) →
  ∃ r db', check_tickets_remaining event_id ttl now db = Ok (r, db').
Proof.
  intros Hsize Hlim.
  pose proof (count_taken_le_size event_id
                (delete_expired now event_id ttl (tickets db))) as Hn.
  pose proof (map_subseteq_size _ _
                (delete_expired_subseteq now event_id ttl (tickets db)))
    as Hsub. apply inj_le in Hsub.
  assert (in_INT (count_taken event_id
                    (delete_expired now event_id ttl (tickets db)))) as HnI.
  { unfold in_INT, INT_MIN, INT_MAX in *. lia. }
  unfold check_tickets_remaining. rewrite (to_INT_Ok _ HnI). simpl.
  destruct (events db !! event_id) as [e|] eqn:He.
  - rewrite (select_remaining_existing _ _ _ _ He).
    rewrite to_INT_Ok; [simpl; by eauto|].
    specialize (Hlim e eq_refl).
    unfold in_INT, INT_MIN, INT_MAX in *. lia.
  - unfold select_remaining, update_tickets_taken.
    rewrite lookup_alter_eq, He. simpl. by eauto.
Qed.

Lemma check_tickets_remaining_never_raises_witness :
  ∃ r db', check_tickets_remaining 7 60 1000000000 ex_db = Ok (r, db').
Proof.
  apply (check_tickets_remaining_never_raises 7 60 1000000000 ex_db).
  - by vm_compute.
  - intros e [= <-]. by vm_compute.
Defined.



(** X6.  The sweep depends on [now] and [ttl] through [now - ttl] only, and
    is monotone in it: of two calls on the same database, the one with the
    later cutoff (a later clock or a shorter [ttl]) leaves no more tickets
    and returns no less. *)
Theorem check_tickets_remaining_monotone
    event_id ttl1 now1 ttl2 now2 db r1 db1 r2 db2 :
  now1 - seconds_interval ttl1 ≤ now2 - seconds_interval ttl2 →
  check_tickets_remaining event_id ttl1 now1 db = Ok (r1, db1) →
  check_tickets_remaining event_id ttl2 now2 db = Ok (r2, db2) →
  tickets db2 ⊆ tickets db1
  ∧ (∀ v1 v2, r1 = Some v1 → r2 = Some v2 → v1 ≤ v2).
Proof.
  intros Hcut H1 H2.
  apply check_tickets_remaining_Ok in H1 as (_ & Hsel1 & ->).
  apply check_tickets_remaining_Ok in H2 as (_ & Hsel2 & ->). simpl.
  pose proof (delete_expired_mono _ _ _ _ event_id (tickets db) Hcut) as Hsub.
  split; [done|]. intros v1 v2 -> ->.
  pose proof (count_taken_mono event_id _ _ Hsub) as Hn.
  destruct (events db !! event_id) as [e|] eqn:He.
  - rewrite (select_remaining_existing _ _ _ _ He) in Hsel1.
    rewrite (select_remaining_existing _ _ _ _ He) in Hsel2.
    destruct (to_INT _) as [w1|] eqn:Hw1 in Hsel1; simpl in Hsel1; [|done].
    destruct (to_INT _) as [w2|] eqn:Hw2 in Hsel2; simpl in Hsel2; [|done].
    apply to_INT_inv in Hw1 as [-> _]. apply to_INT_inv in Hw2 as [-> _].
    simplify_eq. lia.
  - unfold select_remaining, update_tickets_taken in Hsel1.
    rewrite lookup_alter_eq, He in Hsel1. done.
Qed.

Lemma check_tickets_remaining_monotone_witness :
  tickets ex_db_swept ⊆ tickets (run_calls [mkCall 7 600 1000000000] ex_db)
  ∧ (∀ v1 v2, Some (-1) = Some v1 → Some 2 = Some v2 → v1 ≤ v2).
Proof.
  apply (check_tickets_remaining_monotone
           7 600 1000000000 60 1000000000 ex_db (Some (-1))
           (run_calls [mkCall 7 600 1000000000] ex_db) (Some 2) ex_db_swept);
    by vm_compute.
Defined.

(** X7.  A call absorbs an earlier call for the same event whose cutoff
    [now - ttl] was not later: made after it, the call returns the same
    result, value and database, as if the earlier call had not been made. *)
Theorem check_tickets_remaining_absorbs event_id ttl1 now1 ttl2 now2 db :
  now1 - seconds_interval ttl1 ≤ now2 - seconds_interval ttl2 →
  check_tickets_remaining event_id ttl2 now2
    (db_after db (check_tickets_remaining event_id ttl1 now1 db))
  = check_tickets_remaining event_id ttl2 now2 db.
Proof.
  intros Hcut.
  destruct (check_tickets_remaining event_id ttl1 now1 db)
    as [[v1 db1]|err] eqn:H1; [|done]. simpl.
  apply check_tickets_remaining_Ok in H1 as (_ & _ & ->).
  unfold check_tickets_remaining. simpl.
  rewrite (delete_expired_absorb _ _ _ _ _ _ Hcut).
  destruct (to_INT _) as [n|err]; simpl; [|done].
  by rewrite update_tickets_taken_overwrite.
Qed.

Lemma check_tickets_remaining_absorbs_witness :
  check_tickets_remaining 7 60 1000000000
    (db_after ex_db (check_tickets_remaining 7 600 900000000 ex_db))
  = check_tickets_remaining 7 60 1000000000 ex_db.
Proof.
  apply (check_tickets_remaining_absorbs 7 600 900000000 60 1000000000 ex_db).
  by vm_compute.
Defined.

(** A call for one event, seen after a returning call for another event:
    it raises when it would have raised, and otherwise returns the same
    value, having done its own sweep and update on top. *)
Lemma check_tickets_remaining_after_other
    e1 ttl1 now1 e2 ttl2 now2 db v1 db1 :
  e1 ≠ e2 →
  check_tickets_remaining e1 ttl1 now1 db = Ok (v1, db1) →
  check_tickets_remaining e2 ttl2 now2 db1
  = match check_tickets_remaining e2 ttl2 now2 db with
    | Ok (v2, db2) =>
        Ok (v2, {| tickets := delete_expired now1 e1 ttl1 (tickets db2);
                   events := update_tickets_taken e1
                               (count_taken e1
                                  (delete_expired now1 e1 ttl1 (tickets db)))
                               (events db2);
                   users := users db; actions := actions db |})
    | Err err => Err err
    end.
Proof.
  intros Hne H1. apply check_tickets_remaining_Ok in H1 as (_ & _ & ->).
  unfold check_tickets_remaining. simpl.
  rewrite (delete_expired_comm now2 ttl2 e2 now1 ttl1 e1).
  rewrite (count_taken_delete_expired_ne _ _ e1 e2) by done.
  destruct (to_INT _) as [n2|err]; simpl; [|done].
  rewrite (update_tickets_taken_comm e2 _ e1) by done.
  rewrite (select_remaining_update_ne e1 _ e2) by done.
  destruct (select_remaining _ _) as [v2|err]; simpl; done.
Qed.

(** X8.  Calls for two different events do not see each other: the second
    returns what it would have returned alone, and the database after both
    is the same in either order, whether or not one of them raised. *)
Theorem check_tickets_remaining_commute e1 ttl1 now1 e2 ttl2 now2 db :
  e1 ≠ e2 →
  let c1 := check_tickets_remaining e1 ttl1 now1 in
  let c2 := check_tickets_remaining e2 ttl2 now2 in
  returned (c2 (db_after db (c1 db))) = returned (c2 db)
  ∧ db_after (db_after db (c1 db)) (c2 (db_after db (c1 db)))
    = db_after (db_after db (c2 db)) (c1 (db_after db (c2 db))).
Proof.
  intros Hne c1 c2. subst c1 c2.
  destruct (check_tickets_remaining e1 ttl1 now1 db)
    as [[v1 db1]|err1] eqn:H1;
  destruct (check_tickets_remaining e2 ttl2 now2 db)
    as [[v2 db2]|err2] eqn:H2; simpl.
  - rewrite (check_tickets_remaining_after_other _ _ _ _ _ _ _ _ _ Hne H1).
    rewrite (check_tickets_remaining_after_other _ _ _ _ _ _ _ _ _
               (not_eq_sym Hne) H2).
    rewrite H1, H2. simpl. split; [done|].
    apply check_tickets_remaining_Ok in H1 as (_ & _ & ->).
    apply check_tickets_remaining_Ok in H2 as (_ & _ & ->). simpl.
    f_equal.
    + apply delete_expired_comm.
    + by apply update_tickets_taken_comm, not_eq_sym.
  - rewrite (check_tickets_remaining_after_other _ _ _ _ _ _ _ _ _ Hne H1).
    rewrite H1, H2. done.
  - rewrite H2. simpl.
    rewrite (check_tickets_remaining_after_other _ _ _ _ _ _ _ _ _
               (not_eq_sym Hne) H2).
    rewrite H1. done.
  - rewrite H1, H2. done.
Qed.

Lemma check_tickets_remaining_commute_witness :
  returned (check_tickets_remaining 8 60 1000000000
              (db_after two_events_db
                 (check_tickets_remaining 7 30 900000000 two_events_db)))
  = Ok (Some 4).
Proof.
  destruct (check_tickets_remaining_commute
              7 30 900000000 8 60 1000000000 two_events_db) as [Hval _];
    [done|].
  etrans; [exact Hval|]. by vm_compute.
Defined.

(** X9.  The [ttl] is not checked for sign.  With a [ttl] that is not
    negative, a ticket dated at the clock reading of the call or later is
    kept, so a reservation made in the very transaction survives its own
    check; with a negative [ttl], every reservation of the event dated at
    the clock reading or earlier is removed. *)
Theorem check_tickets_remaining_ttl_sign event_id ttl now db r db' k t :
  check_tickets_remaining event_id ttl now db = Ok (r, db') →
  tickets db !! k = Some t →
  (0 ≤ ttl → now ≤ created_ts t → tickets db' !! k = Some t)
  ∧ (ttl < 0 → status t = reserved → event t = event_id →
     created_ts t ≤ now → tickets db' !! k = None).
Proof.
  intros H Hk. apply check_tickets_remaining_Ok in H as (_ & _ & ->). simpl.
  rewrite lookup_delete_expired, Hk. simpl.
  unfold expired_reservation, seconds_interval, USECS_PER_SEC.
  split.
  - intros Httl Hts. rewrite decide_False; [done|]. intros (_ & _ & ?). lia.
  - intros Httl Hs He Hts. rewrite decide_True; [done|].
    repeat split; [done..|lia].
Qed.

Lemma check_tickets_remaining_ttl_sign_witness :
  tickets (run_calls [mkCall 7 (-1) 1000000000] boundary_db) !! 1 = None.
Proof.
  destruct (check_tickets_remaining_ttl_sign
              7 (-1) 1000000000 boundary_db (Some 10)
              (run_calls [mkCall 7 (-1) 1000000000] boundary_db)
              1 (mkTicket 7 reserved 940000000)) as [_ Hneg];
    [by vm_compute|reflexivity|].
  apply Hneg; [lia|reflexivity|reflexivity|by vm_compute].
Defined.


(** * Further properties of update_user_ts *)

Section more_activity.
Implicit Types (NEW : Action) (db : DB) (u : User).

Lemma run_insertions_snoc steps now NEW db :
  run_insertions (steps ++ [(now, NEW)]) db
  = insert_action NEW now (run_insertions steps db).
Proof. unfold run_insertions. by rewrite foldl_app. Qed.

Lemma run_insertions_app steps1 steps2 db :
  run_insertions (steps1 ++ steps2) db
  = run_insertions steps2 (run_insertions steps1 db).
Proof. unfold run_insertions. by rewrite foldl_app. Qed.

(** [run_insertions] ends where [insert_actions] ends. *)
Lemma run_insertions_last steps : ∀ db,
  last (db :: insert_actions steps db) = Some (run_insertions steps db).
Proof.
  induction steps as [|[now NEW] steps IH]; intros db; [done|].
  change (last (db :: insert_action NEW now db
                   :: insert_actions steps (insert_action NEW now db))
          = Some (run_insertions steps (insert_action NEW now db))).
  rewrite <-IH. done.
Qed.

Lemma run_insertions_not_by id steps : ∀ db,
  Forall (λ s, user_id s.2 ≠ Some id) steps →
  users (run_insertions steps db) !! id = users db !! id.
Proof.
  induction steps as [|[now NEW] steps IH]; intros db Hall; [done|].
  apply Forall_cons in Hall as [Hne Hall].
  change (users (run_insertions steps (insert_action NEW now db)) !! id
          = users db !! id).
  rewrite IH by done. by apply lookup_insert_action_other.
Qed.
End more_activity.


(** X11.  The last insertion decides: after a sequence of insertions, the
    [active_ts] of a user is the clock reading of the last inserted action
    carrying that user's id, the rest of the row being as it was; a user
    whose id no inserted action carries keeps the row unchanged.  An
    action whose [user_id] is NULL or names no user changes no user. *)
Theorem update_user_ts_last_insertion_wins id u db :
  users db !! id = Some u →
  (∀ before now NEW after,
     user_id NEW = Some id →
     Forall (λ s, user_id s.2 ≠ Some id) after →
     users (run_insertions (before ++ (now, NEW) :: after) db) !! id
     = Some {| first_name := first_name u; last_name := last_name u;
               email := email u; active_ts := now |})
  ∧ (∀ steps, Forall (λ s, user_id s.2 ≠ Some id) steps →
       users (run_insertions steps db) !! id = Some u)
  ∧ (∀ now NEW,
       match user_id NEW with
       | Some id' => users db !! id' = None
       | None => True
       end →
       users (insert_action NEW now db) = users db).
Proof.
  intros Hu. repeat split.
  - intros before now NEW after Hid Hafter.
    rewrite run_insertions_app.
    change (run_insertions ((now, NEW) :: after) (run_insertions before db))
      with (run_insertions after
              (insert_action NEW now (run_insertions before db))).
    rewrite (run_insertions_not_by id after _ Hafter).
    rewrite (lookup_insert_action_user _ _ _ _ Hid).
    assert (∃ u', users (run_insertions before db) !! id = Some u'
                  ∧ first_name u' = first_name u
                  ∧ last_name u' = last_name u ∧ email u' = email u)
      as (u' & -> & Hf & Hl & He).
    { clear Hafter. induction before as [|[t a] before IH] using rev_ind.
      - by exists u.
      - destruct IH as (u' & Hu' & Hf & Hl & He).
        rewrite run_insertions_snoc.
        destruct (decide (user_id a = Some id)) as [Ha|Ha].
        + rewrite (lookup_insert_action_user _ _ _ _ Ha), Hu'.
          by exists (set_active_ts t u').
        + rewrite (lookup_insert_action_other _ _ _ _ Ha).
          by exists u'. }
    simpl. unfold set_active_ts. by rewrite Hf, Hl, He.
  - intros steps Hall. by rewrite run_insertions_not_by.
  - intros now NEW Hnone. unfold insert_action, update_user_ts. simpl.
    destruct (user_id NEW) as [id'|]; [|done]. by apply alter_id'.
Qed.

Lemma update_user_ts_last_insertion_wins_witness :
  users (run_insertions ex_steps ex_users_db) !! 1
  = Some (mkUser (Some "Jo") (Some "Smith") (Some "a@b.com") 30000000).
Proof.
  destruct (update_user_ts_last_insertion_wins 1
              (mkUser (Some "Jo") (Some "Smith") (Some "a@b.com") 5000000)
              ex_users_db) as (Hlast & _ & _); [reflexivity|].
  apply (Hlast [ (10000000, mkAction (Some 1));
                 (10000000, mkAction (Some 2)); (20000000, mkAction None) ]
               30000000 (mkAction (Some 1)) []);
    [reflexivity|constructor].
Defined.


(** * Further properties of full_name *)

(** X12.  The display name is NULL only when the first name, the last name
    and the email are all NULL, and the email plays no part as soon as one
    of the names is present. *)
Theorem full_name_null_only_if_all_null f l e :
  (full_name f l e = None ↔ f = None ∧ l = None ∧ e = None)
  ∧ (∀ e', f ≠ None ∨ l ≠ None → full_name f l e = full_name f l e').
Proof.
  split.
  - destruct f as [f|], l as [l|], e as [e|]; unfold full_name; simpl;
      intuition congruence.
  - intros e' Hname.
    destruct f as [f|], l as [l|]; unfold full_name; simpl;
      intuition congruence.
Qed.

Lemma full_name_null_only_if_all_null_witness :
  full_name None (Some "Smith") (Some "a@b.com")
  = full_name None (Some "Smith") None.
Proof.
  destruct (full_name_null_only_if_all_null None (Some "Smith")
              (Some "a@b.com")) as [_ Hemail].
  apply (Hemail None). by right.
Defined.


(** * Properties of the set-password form and of the settings menu *)

Section string_prefix.
Implicit Types s p t : string.

Lemma prefix_cons c1 c2 s1 s2 :
  String.prefix (String c1 s1) (String c2 s2) = true ↔
  c1 = c2 ∧ String.prefix s1 s2 = true.
Proof.
  simpl. destruct (ascii_dec c1 c2) as [->|Hne]; [tauto|].
  split; [done|]. by intros [? _].
Qed.

Lemma prefix_append p t : String.prefix p (p +:+ t) = true.
Proof.
  induction p as [|c p IH]; [by destruct t|].
  rewrite append_cons. by apply prefix_cons.
Qed.

Lemma string_skip_append p t : string_skip (String.length p) (p +:+ t) = t.
Proof. induction p as [|c p IH]; [done|]. by rewrite append_cons. Qed.

Lemma prefix_split p : ∀ s,
  String.prefix p s = true → s = p +:+ string_skip (String.length p) s.
Proof.
  induction p as [|c p IH]; intros s Hp; [done|].
  destruct s as [|c' s]; [done|].
  apply prefix_cons in Hp as [-> Hp].
  rewrite append_cons. simpl. f_equal. by apply IH.
Qed.

(** A prefix made of two parts: the first part is there, and the second
    is a prefix of what follows it. *)
Lemma prefix_append_inv p1 p2 : ∀ s,
  String.prefix (p1 +:+ p2) s = true →
  ∃ rest, s = p1 +:+ rest ∧ String.prefix p2 rest = true.
Proof.
  induction p1 as [|c p1 IH]; intros s Hp; [by exists s|].
  rewrite append_cons in Hp. destruct s as [|c' s]; [done|].
  apply prefix_cons in Hp as [-> Hp].
  destruct (IH s Hp) as (rest & -> & Hrest). by exists rest.
Qed.

Lemma append_inj_l p s t : p +:+ s = p +:+ t → s = t.
Proof.
  induction p as [|c p IH]; [done|].
  rewrite !append_cons. intros [= H]. by apply IH.
Qed.

Lemma replace_by_empty_unfold p s :
  replace_by_empty p s
  = if String.prefix p s then string_skip (String.length p) s
    else match s with
         | EmptyString => EmptyString
         | String c s => String c (replace_by_empty p s)
         end.
Proof. by destruct s. Qed.

Lemma replace_by_empty_absent p : ∀ s,
  (∀ a b, s ≠ a +:+ p +:+ b) → replace_by_empty p s = s.
Proof.
  induction s as [|c s IH]; intros Habs; rewrite replace_by_empty_unfold.
  - destruct (String.prefix p "") eqn:Hp; [|done].
    apply prefix_split in Hp. by destruct (Habs "" _ Hp).
  - destruct (String.prefix p (String c s)) eqn:Hp.
    + apply prefix_split in Hp. by destruct (Habs "" _ Hp).
    + f_equal. apply IH. intros a b ->.
      by apply (Habs (String c a) b).
Qed.

(** Two slash-free names followed by a slash that start the same string
    are the same name. *)
Lemma slash_free_prefix_inj n1 : ∀ n2 s,
  slash_free n1 → slash_free n2 →
  String.prefix (n1 +:+ "/") s = true →
  String.prefix (n2 +:+ "/") s = true →
  n1 = n2.
Proof.
  induction n1 as [|c n1 IH]; intros [|d n2] s H1 H2 Hp1 Hp2; [done|..].
  - destruct s as [|x s]; [done|]. rewrite append_cons in Hp2.
    apply prefix_cons in Hp1 as [<- _]. apply prefix_cons in Hp2 as [-> _].
    by destruct H2.
  - destruct s as [|x s]; [done|]. rewrite append_cons in Hp1.
    apply prefix_cons in Hp1 as [-> _]. apply prefix_cons in Hp2 as [<- _].
    by destruct H1.
  - destruct s as [|x s]; [done|]. rewrite append_cons in Hp1, Hp2.
    apply prefix_cons in Hp1 as [-> Hp1]. apply prefix_cons in Hp2 as [-> Hp2].
    destruct H1 as [_ H1], H2 as [_ H2]. f_equal. by apply (IH n2 s).
Qed.
End string_prefix.

(** X13.  The token sent by the set-password form is what follows
    [?token=] when the query string starts with it, whatever follows, other
    parameters included; a query string in which [?token=] does not occur,
    the empty one for instance, is sent whole as the token. *)
Theorem token_of_search_cases :
  (∀ t, token_of_search ("?token=" +:+ t) = t)
  ∧ (∀ search, (∀ a b, search ≠ a +:+ "?token=" +:+ b) →
       token_of_search search = search).
Proof.
  split.
  - intros t. unfold token_of_search. rewrite replace_by_empty_unfold.
    rewrite prefix_append. apply string_skip_append.
  - intros search Habs. by apply replace_by_empty_absent.
Qed.

Lemma token_of_search_cases_witness :
  token_of_search "?token=abc&next=1" = "abc&next=1"
  ∧ token_of_search "" = "".
Proof.
  destruct token_of_search_cases as [Hfirst Habs]. split.
  - apply (Hfirst "abc&next=1").
  - apply (Habs ""). intros a b H.
    apply (f_equal String.length) in H. rewrite !length_append in H.
    simpl in H. lia.
Defined.

(** The class name tells whether the entry is active. *)
Lemma MenuItem_active_iff as_title p pathname :
  className (MenuItem as_title p pathname)
  = "list-group-item list-group-item-action active"
  ↔ String.prefix (list_uri p) pathname = true.
Proof.
  unfold MenuItem. simpl.
  destruct (String.prefix (list_uri p) pathname); [done|].
  split; [|done]. intros H. by vm_compute in H.
Qed.

(** X14.  In the settings menu the entry of a page is active on its list
    address and on every address below it (the add page, a details page).
    Two pages whose names are free of [/] and differ are never active
    together, so that of the five entries of [PAGES] at most one is active,
    whatever the address. *)
Theorem MenuItem_at_most_one_active as_title pathname :
  (∀ p rest,
     className (MenuItem as_title p (list_uri p +:+ rest))
     = "list-group-item list-group-item-action active")
  ∧ (∀ p q, slash_free (name p) → slash_free (name q) →
       className (MenuItem as_title p pathname)
       = "list-group-item list-group-item-action active" →
       className (MenuItem as_title q pathname)
       = "list-group-item list-group-item-action active" →
       name p = name q)
  ∧ (∀ p q, p ∈ PAGES → q ∈ PAGES →
       className (MenuItem as_title p pathname)
       = "list-group-item list-group-item-action active" →
       className (MenuItem as_title q pathname)
       = "list-group-item list-group-item-action active" →
       p = q).
Proof.
  assert (∀ p q, slash_free (name p) → slash_free (name q) →
            className (MenuItem as_title p pathname)
            = "list-group-item list-group-item-action active" →
            className (MenuItem as_title q pathname)
            = "list-group-item list-group-item-action active" →
            name p = name q) as Hnames.
  { intros p q Hp Hq Hap Haq.
    apply MenuItem_active_iff in Hap, Haq. unfold list_uri in Hap, Haq.
    apply prefix_append_inv in Hap as (rp & -> & Hap).
    apply prefix_append_inv in Haq as (rq & Heq & Haq).
    apply append_inj_l in Heq as <-.
    by apply (slash_free_prefix_inj _ _ rp). }
  split; [|split; [exact Hnames|]].
  - intros p rest. apply MenuItem_active_iff, prefix_append.
  - intros p q Hp Hq Hap Haq.
    assert (∀ x, x ∈ PAGES → slash_free (name x)) as Hfree.
    { intros x Hx. unfold PAGES in Hx.
      repeat (apply elem_of_cons in Hx as [->|Hx]; [by vm_compute|]).
      by apply elem_of_nil in Hx. }
    pose proof (Hnames p q (Hfree p Hp) (Hfree q Hq) Hap Haq) as Hn.
    unfold PAGES in Hp, Hq.
    repeat (apply elem_of_cons in Hp as [->|Hp]);
      try (by apply elem_of_nil in Hp);
      repeat (apply elem_of_cons in Hq as [->|Hq]);
      try (by apply elem_of_nil in Hq);
      first [reflexivity | by vm_compute in Hn].
Qed.

Lemma MenuItem_at_most_one_active_witness :
  className (MenuItem (λ s, s) (mkPage "users" "User" None None)
               "/settings/users/12/")
  = "list-group-item list-group-item-action active"
  ∧ className (MenuItem (λ s, s) (mkPage "company" "Company" None None)
                 "/settings/users/12/")
    ≠ "list-group-item list-group-item-action active".
Proof.
  destruct (MenuItem_at_most_one_active (λ s, s) "/settings/users/12/")
    as (Hown & Hnames & _).
  split; [exact (Hown (mkPage "users" "User" None None) "12/")|].
  intros Hc.
  specialize (Hnames (mkPage "users" "User" None None)
                (mkPage "company" "Company" None None)).
  assert ("users" = "company") as Habs; [|done].
  apply Hnames; [by vm_compute..|exact Hc].
Defined.

Section password_form.
Variable zxcvbn : string → zxcvbn_result.

Lemma after_inputs_snoc es e :
  after_inputs zxcvbn (es ++ [e])
  = deliver zxcvbn (after_inputs zxcvbn es) e.
Proof. unfold after_inputs. by rewrite foldl_app. Qed.

Lemma on_input_pw1_fields v f :
  pw1_value (on_input_pw1 zxcvbn v f) = v
  ∧ pw2_value (on_input_pw1 zxcvbn v f) = pw2_value f
  ∧ pw1_ok (on_input_pw1 zxcvbn v f) = strong_enough zxcvbn v
  ∧ pw2_ok (on_input_pw1 zxcvbn v f) = pw2_ok f
  ∧ pw2_className (on_input_pw1 zxcvbn v f) = pw2_className f.
Proof.
  unfold on_input_pw1. by destruct (strong_enough zxcvbn v).
Qed.

(** What holds of the form whatever has been typed. *)
Lemma after_inputs_invariant es :
  let f := after_inputs zxcvbn es in
  btn_disabled f = negb (pw1_ok f) || negb (pw2_ok f)
  ∧ pw1_ok f = strong_enough zxcvbn (pw1_value f).
Proof.
  induction es as [|e es IH] using rev_ind; [done|].
  rewrite after_inputs_snoc. destruct IH as [_ IH2].
  destruct e as [v|v]; unfold deliver.
  - unfold on_input_pw1.
    destruct (strong_enough zxcvbn v) eqn:Hs; simpl; by rewrite Hs.
  - unfold on_input_pw2. simpl. by split.
Qed.
End password_form.

(** X15.  Whatever is typed into the set-password form, in whatever order,
    the submit button is enabled only while the first field holds more
    than five characters that the estimator scores 2 or more; the button
    is disabled exactly when one of the two flags is down. *)
Theorem set_password_button_needs_strong_password zxcvbn es :
  let f := after_inputs zxcvbn es in
  btn_disabled f = negb (pw1_ok f && pw2_ok f)
  ∧ (btn_disabled f = false →
     (5 < String.length (pw1_value f))%nat
     ∧ (2 ≤ score (zxcvbn (pw1_value f)))%nat).
Proof.
  intros f. destruct (after_inputs_invariant zxcvbn es) as [Hbtn Hok].
  fold f in Hbtn, Hok. split.
  - rewrite Hbtn. by destruct (pw1_ok f), (pw2_ok f).
  - intros Hen. rewrite Hen in Hbtn.
    destruct (pw1_ok f) eqn:H1; [|done].
    symmetry in Hok. unfold strong_enough in Hok.
    apply andb_true_iff in Hok as [Hlen Hscore].
    split; [by apply Nat.ltb_lt|by apply Nat.leb_le].
Qed.

Lemma set_password_button_needs_strong_password_witness :
  (5 < String.length "correct horse")%nat
  ∧ (2 ≤ score (lenient_zxcvbn "correct horse"))%nat.
Proof.
  destruct (set_password_button_needs_strong_password lenient_zxcvbn
              [input_pw1 "correct horse"; input_pw2 "correct horse"])
    as [_ Hen].
  apply Hen. reflexivity.
Defined.

(** X16.  The match of the two fields is only tested when the second one
    is typed into.  Once the second field has been made equal to the
    first, replacing the first by any other strong password leaves the
    button enabled and the second field marked valid, and what would be
    submitted then carries the two different passwords. *)
Theorem set_password_stale_match zxcvbn es a b search :
  pw1_value (after_inputs zxcvbn es) = a →
  strong_enough zxcvbn b = true →
  let f := after_inputs zxcvbn (es ++ [input_pw2 a; input_pw1 b]) in
  btn_disabled f = false
  ∧ pw2_className f = "form-control is-valid"
  ∧ password1 (on_submit_data search f) = b
  ∧ password2 (on_submit_data search f) = a.
Proof.
  intros Ha Hb f. subst f.
  change (es ++ [input_pw2 a; input_pw1 b])
    with (es ++ [input_pw2 a] ++ [input_pw1 b]).
  rewrite app_assoc, !after_inputs_snoc. unfold deliver.
  set (f0 := after_inputs zxcvbn es) in *.
  destruct (on_input_pw1_fields zxcvbn b (on_input_pw2 a f0))
    as (Hv1 & Hv2 & Hok1 & Hok2 & Hcls).
  unfold on_submit_data. cbn [password1 password2].
  rewrite Hv1, Hv2, Hcls.
  assert (pw2_ok (on_input_pw2 a f0) = true) as Hmatch.
  { unfold on_input_pw2. simpl. by rewrite bool_decide_eq_true. }
  repeat split.
  - unfold on_input_pw1. rewrite Hb.
    cbn [enabled_button btn_disabled pw1_ok pw2_ok]. by rewrite Hmatch.
  - unfold on_input_pw2. simpl. by rewrite bool_decide_true.
Qed.

Lemma set_password_stale_match_witness :
  let f := after_inputs lenient_zxcvbn
             [input_pw1 "correct horse"; input_pw2 "correct horse";
              input_pw1 "battery staple"] in
  btn_disabled f = false
  ∧ pw2_className f = "form-control is-valid"
  ∧ password1 (on_submit_data "?token=abc" f) = "battery staple"
  ∧ password2 (on_submit_data "?token=abc" f) = "correct horse".
Proof.
  apply (set_password_stale_match lenient_zxcvbn
           [input_pw1 "correct horse"] "correct horse" "battery staple"
           "?token=abc"); reflexivity.
Defined.

(** X17.  Right after the second field has been typed into, the button is
    enabled exactly when the first field holds a strong password and the
    two fields are equal. *)
Theorem set_password_button_after_repeat zxcvbn es v :
  let f := after_inputs zxcvbn (es ++ [input_pw2 v]) in
  btn_disabled f = false
  ↔ strong_enough zxcvbn (pw1_value f) = true ∧ pw1_value f = pw2_value f.
Proof.
  intros f. subst f. rewrite after_inputs_snoc. simpl.
  destruct (after_inputs_invariant zxcvbn es) as [_ ->].
  destruct (strong_enough zxcvbn (pw1_value (after_inputs zxcvbn es)));
    simpl; [|by intuition].
  rewrite negb_false_iff, bool_decide_eq_true. tauto.
Qed.
